(** * Incremental table synchronisation (ETLGcpLocal/etl.py)

    A shallow embedding of the script that copies the rows of a list of
    tables from a source PostgreSQL database to a destination one, fetching
    for each table only the rows newer than the largest timestamp already
    present in the destination.

    The script talks to three collaborators that are not part of the
    repository: the process environment, the source connection (psycopg2)
    and the destination engine (SQLAlchemy and pandas).  They are modelled
    by a [world]: two finite maps from table names to tables, the
    environment variables, a schedule that says which external calls fail
    with a connection error, and the trace of log lines and database
    operations.  The Python functions become computations in a small
    state-and-exception monad in which [sys.exit] is an outcome of its own,
    because [except Exception] does not catch it.

    What the model assumes of the collaborators: table and column names
    are plain lower-case identifiers, so that the quoted and the unquoted
    form of a name denote one table; a statement either fails as a whole
    or takes effect as a whole; [to_sql] writes its batch in one
    transaction; values cross pandas unchanged. *)

From stdpp Require Import gmap strings list.

Open Scope string_scope.
Open Scope Z_scope.
Open Scope list_scope.

(** ** Values *)

(** The values a cell, a query parameter or a Python variable can hold:
    [None] (SQL NULL), an integer, a string and a [datetime] (microseconds
    since the epoch). *)
Inductive value : Type :=
| VNone
| VInt (n : Z)
| VStr (s : string)
| VDatetime (us : Z).

Global Instance value_eq_dec : EqDecision value.
Proof. solve_decision. Defined.

(** The declared type of a column. *)
Inductive sqltype : Type := TInteger | TText | TTimestamp.

Global Instance sqltype_eq_dec : EqDecision sqltype.
Proof. solve_decision. Defined.

Definition type_of (v : value) : option sqltype :=
  match v with
  | VNone => None
  | VInt _ => Some TInteger
  | VStr _ => Some TText
  | VDatetime _ => Some TTimestamp
  end.

(** A value fits a column when it is NULL or has the column's type. *)
Definition conforms (v : value) (ty : sqltype) : bool :=
  match type_of v with
  | None => true
  | Some ty' => bool_decide (ty' = ty)
  end.

(** Python truthiness, the test behind [if last_timestamp] and
    [if not value]: [None], [0] and the empty string are falsy, a
    [datetime] is always truthy. *)
Definition truthy (v : value) : bool :=
  match v with
  | VNone => false
  | VInt n => negb (n =? 0)
  | VStr s => negb (String.eqb s "")
  | VDatetime _ => true
  end.

Definition str_truthy (s : string) : bool := negb (String.eqb s "").

(** The SQL comparison [v > w] as a row filter: true only when both sides
    are non-NULL values of one type and [v] is the larger. *)
Definition sql_gt (v w : value) : bool :=
  match v, w with
  | VInt a, VInt b => b <? a
  | VStr a, VStr b => String.ltb b a
  | VDatetime a, VDatetime b => b <? a
  | _, _ => false
  end.

(** A total preorder on values, used by the [MAX] aggregate.  Inside one
    type it is the type's order; a well-typed column never compares across
    types, where the order of the constructors is used. *)
Definition rank (v : value) : Z :=
  match v with
  | VNone => 0
  | VInt _ => 1
  | VStr _ => 2
  | VDatetime _ => 3
  end.

Definition value_leb (v w : value) : bool :=
  match v, w with
  | VInt a, VInt b => a <=? b
  | VStr a, VStr b => String.leb a b
  | VDatetime a, VDatetime b => a <=? b
  | _, _ => rank v <=? rank w
  end.

(** [MAX] ignores NULLs and is NULL when there is nothing else. *)
Definition value_max (a b : value) : value :=
  match a, b with
  | VNone, _ => b
  | _, VNone => a
  | _, _ => if value_leb a b then b else a
  end.

Definition sql_max (vs : list value) : value := foldr value_max VNone vs.

(** ** Tables and data frames *)

Record table : Type := Table {
  columns : list (string * sqltype);
  rows : list (list value)
}.

Definition column_names (tbl : table) : list string := (columns tbl).*1.

(** Position of a column in a row. *)
Fixpoint index_of (c : string) (cs : list string) : option nat :=
  match cs with
  | [] => None
  | c' :: cs' => if decide (c' = c) then Some 0%nat else S <$> index_of c cs'
  end.

Definition cell (r : list value) (i : nat) : value := default VNone (r !! i).

(** A [pandas.DataFrame] built as [pd.DataFrame(data, columns=columns)]
    from the rows of a result set; the database gives every row the width
    of the result's columns. *)
Record DataFrame : Type := mkDataFrame {
  df_data : list (list value);
  df_columns : list string
}.

(** [df.empty]: some axis has length zero. *)
Definition df_empty (df : DataFrame) : bool :=
  match df_data df, df_columns df with
  | [], _ => true
  | _, [] => true
  | _, _ => false
  end.

(** [len(df)]: the number of rows. *)
Definition df_len (df : DataFrame) : nat := length (df_data df).

(** A column by name: its position and declared type. *)
Fixpoint find_column (c : string) (cols : list (string * sqltype))
  : option (nat * sqltype) :=
  match cols with
  | [] => None
  | (c', ty) :: cols' =>
      if decide (c' = c) then Some (0%nat, ty)
      else prod_map S id <$> find_column c cols'
  end.

(** The values of column [i], one per row. *)
Definition column_values (i : nat) (rs : list (list value)) : list value :=
  (λ r, cell r i) <$> rs.

(** ** Exceptions, events and the world *)

(** The exceptions the database libraries raise in the model. *)
Inductive exn : Type :=
| OperationalError      (* the connection failed or was lost *)
| ProgrammingError      (* unknown table or column, operator without a match *)
| DataError.            (* a value does not fit the column it is written to *)

(** The two statements [fetch_incremental_data] builds. *)
Inductive query : Type :=
| SelectAll (t : string)                   (* SELECT * FROM t *)
| SelectWhereGt (t c : string).            (* SELECT * FROM t WHERE c > %s *)

(** What an observer of a run sees, in order: the log lines of the script
    and the calls it makes to its collaborators. *)
Inductive event : Type :=
| ErrEnvNotSet (var : string)              (* line 19 *)
| ErrConnect (e : exn)                     (* line 39 *)
| ErrEngine (e : exn)                      (* line 47 *)
| ErrLatest (t : string) (e : exn)         (* line 57 *)
| ErrFetch (t : string) (e : exn)          (* line 73 *)
| ErrCopy (t : string) (e : exn)           (* line 91 *)
| InfoNoNewData (t : string)               (* line 79 *)
| InfoCopied (n : nat) (t : string)        (* line 85 *)
| InfoMaxAfter (c t : string) (v : value)  (* line 89 *)
| InfoProcessing (t : string)              (* line 100 *)
| CallCreateEngine (url : string)
| CallConnect
| CallSelectMax (t c : string)             (* on the destination *)
| CallExecute (q : query) (param : option value)   (* on the source *)
| CallToSql (t : string) (n : nat).        (* on the destination *)

Global Instance exn_eq_dec : EqDecision exn.
Proof. solve_decision. Defined.
Global Instance query_eq_dec : EqDecision query.
Proof. solve_decision. Defined.
Global Instance event_eq_dec : EqDecision event.
Proof. solve_decision. Defined.

Record world : Type := World {
  environ : gmap string string;       (* os.environ after load_dotenv() *)
  source_db : gmap string table;
  dest_db : gmap string table;
  faults : list bool;                 (* true: that external call fails *)
  trace : list event
}.

Definition set_trace (tr : list event) (w : world) : world :=
  World (environ w) (source_db w) (dest_db w) (faults w) tr.
Definition set_faults (fs : list bool) (w : world) : world :=
  World (environ w) (source_db w) (dest_db w) fs (trace w).
Definition set_dest_db (d : gmap string table) (w : world) : world :=
  World (environ w) (source_db w) d (faults w) (trace w).
Definition set_source_db (d : gmap string table) (w : world) : world :=
  World (environ w) d (dest_db w) (faults w) (trace w).

(** ** The monad *)

Inductive outcome (A : Type) : Type :=
| Ret (a : A)            (* the call returns *)
| Raise (e : exn)        (* an [Exception] propagates *)
| Exit (code : Z).       (* [SystemExit] propagates *)
Arguments Ret {A} a.
Arguments Raise {A} e.
Arguments Exit {A} code.

Definition M (A : Type) : Type := world → outcome A * world.

Definition ret {A} (a : A) : M A := λ w, (Ret a, w).

Definition bind {A B} (m : M A) (k : A → M B) : M B :=
  λ w, match m w with
       | (Ret a, w') => k a w'
       | (Raise e, w') => (Raise e, w')
       | (Exit c, w') => (Exit c, w')
       end.

Notation "x <- m ;; k" := (bind m (λ x, k))
  (at level 100, m at next level, right associativity).
Notation "m ;; k" := (bind m (λ _, k))
  (at level 100, right associativity).

(** [sys.exit(code)] *)
Definition sys_exit {A} (code : Z) : M A := λ w, (Exit code, w).

(** [try: m except Exception as e: h e].  [SystemExit] is not an
    [Exception], so an [Exit] passes through the handler. *)
Definition try_except {A} (m : M A) (h : exn → M A) : M A :=
  λ w, match m w with
       | (Raise e, w') => h e w'
       | r => r
       end.

(** An external call consumes one entry of the fault schedule and fails
    with a connection error when the entry says so; an exhausted schedule
    means no further fault. *)
Definition fault_next (w : world) : bool := default false (head (faults w)).
Definition tick (w : world) : world := set_faults (tail (faults w)) w.
Definition log (e : event) (w : world) : world :=
  set_trace (trace w ++ [e]) w.

Definition emit (e : event) : M unit := λ w, (Ret tt, log e w).

Definition external_call : M unit :=
  λ w, (if fault_next w then Raise OperationalError else Ret tt, tick w).

(** ** The collaborators *)

Record db_params : Type := DbParams {
  host : string; database : string; user : string;
  password : string; port : string
}.

(** Handles.  The model has one source and one destination database, so a
    handle only records what it was made from. *)
Inductive connection : Type := Connection (params : db_params).
Inductive engine : Type := Engine (url : string).

(** [os.getenv(name)] *)
Definition os_getenv (name : string) : M (option string) :=
  λ w, (Ret (environ w !! name), w).

(** [psycopg2.connect] with the parameters as keyword arguments. *)
Definition connect (params : db_params) : M connection :=
  emit CallConnect;;
  external_call;;
  ret (Connection params).

(** [sqlalchemy.create_engine(url)] *)
Definition create_engine (url : string) : M engine :=
  emit (CallCreateEngine url);;
  external_call;;
  ret (Engine url).

(** [SELECT MAX(c) FROM t] on the destination, then [.scalar()]. *)
Definition select_max (db : gmap string table) (t c : string)
  : exn + value :=
  match db !! t with
  | None => inl ProgrammingError
  | Some tbl =>
      match find_column c (columns tbl) with
      | None => inl ProgrammingError
      | Some (i, _) => inr (sql_max (column_values i (rows tbl)))
      end
  end.

Definition execute_scalar (eng : engine) (t c : string) : M value :=
  emit (CallSelectMax t c);;
  external_call;;
  λ w, match select_max (dest_db w) t c with
       | inl e => (Raise e, w)
       | inr v => (Ret v, w)
       end.

(** [cur.execute(query, params)], [cur.description] and [cur.fetchall()]
    on the source: the names of the result columns and the rows.  The
    comparison needs a column of the parameter's type; a NULL parameter
    selects nothing. *)
Definition run_query (db : gmap string table) (q : query)
    (param : option value) : exn + (list string * list (list value)) :=
  match q, param with
  | SelectAll t, None =>
      match db !! t with
      | None => inl ProgrammingError
      | Some tbl => inr (column_names tbl, rows tbl)
      end
  | SelectWhereGt t c, Some p =>
      match db !! t with
      | None => inl ProgrammingError
      | Some tbl =>
          match find_column c (columns tbl) with
          | None => inl ProgrammingError
          | Some (i, ty) =>
              if conforms p ty
              then inr (column_names tbl,
                        filter (λ r, sql_gt (cell r i) p = true) (rows tbl))
              else inl ProgrammingError
          end
      end
  | _, _ => inl ProgrammingError
  end.

Definition cursor_execute (conn : connection) (q : query)
    (param : option value) : M (list string * list (list value)) :=
  emit (CallExecute q param);;
  external_call;;
  λ w, match run_query (source_db w) q param with
       | inl e => (Raise e, w)
       | inr r => (Ret r, w)
       end.

(** [df.to_sql(t, engine, if_exists='append', index=False)] writes each
    row with an INSERT that names the frame's columns: every one of them
    must be a column of the table, a column of the table the frame lacks
    is NULL, and each value must fit its column.  The batch is written in
    one transaction.  A missing table is created from the frame. *)
Definition project_row (cols : list (string * sqltype))
    (names : list string) (r : list value) : list value :=
  (λ c, match index_of c.1 names with
        | Some i => cell r i
        | None => VNone
        end) <$> cols.

Definition row_conforms (cols : list (string * sqltype))
    (r : list value) : bool :=
  forallb (λ p, conforms p.1 (p.2).2) (zip r cols).

Definition infer_type (vs : list value) : sqltype :=
  default TText (head (omap type_of vs)).

Definition create_table (names : list string) (data : list (list value))
  : table :=
  Table (imap (λ i c, (c, infer_type (column_values i data))) names) data.

Definition insert_rows (tbl : table) (names : list string)
    (data : list (list value)) : exn + table :=
  if forallb (λ c, bool_decide (c ∈ column_names tbl)) names then
    let new := project_row (columns tbl) names <$> data in
    if forallb (row_conforms (columns tbl)) new
    then inr (Table (columns tbl) (rows tbl ++ new))
    else inl DataError
  else inl ProgrammingError.

Definition append_frame (db : gmap string table) (t : string)
    (df : DataFrame) : exn + gmap string table :=
  match db !! t with
  | None => inr (<[t := create_table (df_columns df) (df_data df)]> db)
  | Some tbl =>
      match insert_rows tbl (df_columns df) (df_data df) with
      | inl e => inl e
      | inr tbl' => inr (<[t := tbl']> db)
      end
  end.

Definition to_sql (df : DataFrame) (t : string) (eng : engine) : M unit :=
  emit (CallToSql t (df_len df));;
  external_call;;
  λ w, match append_frame (dest_db w) t df with
       | inl e => (Raise e, w)
       | inr db' => (Ret tt, set_dest_db db' w)
       end.

(** ** The script *)

(** Lines 16-21. *)
Definition get_env_var (var_name : string) : M string :=
  value <- os_getenv var_name;;
  match value with
  | Some v =>
      if str_truthy v then ret v
      else (emit (ErrEnvNotSet var_name);; sys_exit 1)
  | None => emit (ErrEnvNotSet var_name);; sys_exit 1
  end.

(** Lines 24-32: the module-level configuration, read in this order. *)
Definition load_config : M (db_params * string) :=
  h <- get_env_var "SOURCE_DB_HOST";;
  d <- get_env_var "SOURCE_DB_NAME";;
  u <- get_env_var "SOURCE_DB_USER";;
  p <- get_env_var "SOURCE_DB_PASSWORD";;
  q <- get_env_var "SOURCE_DB_PORT";;
  url <- get_env_var "DEST_DB_URL";;
  ret (DbParams h d u p q, url).

(** Lines 35-40. *)
Definition connect_to_postgres (params : db_params) : M connection :=
  try_except (connect params)
    (λ e, emit (ErrConnect e);; sys_exit 1).

(** Lines 43-48. *)
Definition create_engine_for_other_postgres (DEST_DB_URL : string)
  : M engine :=
  try_except (create_engine DEST_DB_URL)
    (λ e, emit (ErrEngine e);; sys_exit 1).

(** Lines 51-58. *)
Definition get_latest_timestamp (eng : engine)
    (table_name timestamp_column : string) : M value :=
  try_except (execute_scalar eng table_name timestamp_column)
    (λ e, emit (ErrLatest table_name e);; sys_exit 1).

(** Lines 61-74. *)
Definition fetch_incremental_data (conn : connection)
    (table_name timestamp_column : string) (last_timestamp : value)
  : M DataFrame :=
  try_except
    (let q := if truthy last_timestamp
              then SelectWhereGt table_name timestamp_column
              else SelectAll table_name in
     r <- cursor_execute conn q
            (if truthy last_timestamp then Some last_timestamp else None);;
     let '(columns, data) := r in
     ret (mkDataFrame data columns))
    (λ e, emit (ErrFetch table_name e);; sys_exit 1).

(** Lines 77-92.  The function has no [return] with a value: what the
    caller gets is [None]. *)
Definition copy_data_to_other_postgres (eng : engine) (df : DataFrame)
    (table_name timestamp_column : string) : M value :=
  if df_empty df then
    emit (InfoNoNewData table_name);;
    ret VNone
  else
    try_except
      (let row_count := df_len df in
       to_sql df table_name eng;;
       emit (InfoCopied row_count table_name);;
       max_timestamp <- get_latest_timestamp eng table_name timestamp_column;;
       emit (InfoMaxAfter timestamp_column table_name max_timestamp))
      (λ e, emit (ErrCopy table_name e);; sys_exit 1);;
    ret VNone.

(** The body of the loop of [main], lines 100-103. *)
Definition sync_table (dest_engine : engine) (source_conn : connection)
    (timestamp_column table_name : string) : M unit :=
  emit (InfoProcessing table_name);;
  last_timestamp <-
    get_latest_timestamp dest_engine table_name timestamp_column;;
  df <- fetch_incremental_data source_conn table_name timestamp_column
          last_timestamp;;
  copy_data_to_other_postgres dest_engine df table_name timestamp_column;;
  ret tt.

(** [for x in xs: body x] *)
Fixpoint for_each {A} (xs : list A) (body : A → M unit) : M unit :=
  match xs with
  | [] => ret tt
  | x :: xs' => body x;; for_each xs' body
  end.

(** Lines 95-103. *)
Definition main (SOURCE_DB_PARAMS : db_params) (DEST_DB_URL : string)
    (tables : list string) (timestamp_column : string) : M unit :=
  dest_engine <- create_engine_for_other_postgres DEST_DB_URL;;
  source_conn <- connect_to_postgres SOURCE_DB_PARAMS;;
  for_each tables (sync_table dest_engine source_conn timestamp_column).

(** The script from its first line: configuration, then [main]. *)
Definition script (tables : list string) (timestamp_column : string)
  : M unit :=
  cfg <- load_config;;
  main cfg.1 cfg.2 tables timestamp_column.

(** Lines 105-108. *)
Definition script_main : M unit :=
  script ["dht_mq_ldr"; "multi_sensor_weather_data"] "timestamp".

(** ** Vocabulary of the statements *)

(** The statement and the parameter [fetch_incremental_data] sends for a
    given watermark (lines 63-65 and 68). *)
Definition fetch_query (t c : string) (last_timestamp : value) : query :=
  if truthy last_timestamp then SelectWhereGt t c else SelectAll t.
Definition fetch_param (last_timestamp : value) : option value :=
  if truthy last_timestamp then Some last_timestamp else None.



(** The batches handed to [to_sql], in order: table and number of rows. *)
Definition loads (tr : list event) : list (string * nat) :=
  omap (λ e, match e with CallToSql t n => Some (t, n) | _ => None end) tr.


(** The database operations of a run, in order. *)
Inductive op : Type :=
| OpMax (t : string)       (* SELECT MAX on the destination *)
| OpSelect (t : string)    (* SELECT on the source *)
| OpToSql (t : string).    (* append to the destination *)

Global Instance op_eq_dec : EqDecision op.
Proof. solve_decision. Defined.

Definition op_of (e : event) : option op :=
  match e with
  | CallSelectMax t _ => Some (OpMax t)
  | CallExecute (SelectAll t) _ => Some (OpSelect t)
  | CallExecute (SelectWhereGt t _) _ => Some (OpSelect t)
  | CallToSql t _ => Some (OpToSql t)
  | _ => None
  end.

Definition ops (tr : list event) : list op := omap op_of tr.

(** The operations of one table that is processed to the end: resolve the
    watermark, fetch and, when the batch is not empty, load and verify. *)
Definition table_ops (t : string) (nonempty : bool) : list op :=
  [OpMax t; OpSelect t] ++ (if nonempty then [OpToSql t; OpMax t] else []).

(** Whether the batch fetched for [t] in this state has rows to load. *)
Definition batch_nonempty (src dst : gmap string table) (t c : string)
  : bool :=
  match select_max dst t c with
  | inl _ => false
  | inr wm =>
      match run_query src (fetch_query t c wm) (fetch_param wm) with
      | inl _ => false
      | inr r => negb (df_empty (mkDataFrame r.2 r.1))
      end
  end.

(** The variables the script requires, in the order it reads them. *)
Definition required_vars : list string :=
  ["SOURCE_DB_HOST"; "SOURCE_DB_NAME"; "SOURCE_DB_USER";
   "SOURCE_DB_PASSWORD"; "SOURCE_DB_PORT"; "DEST_DB_URL"].

(** A variable is set when [os.getenv] gives a non-empty string. *)
Definition is_set (env : gmap string string) (var : string) : bool :=
  match env !! var with
  | Some v => str_truthy v
  | None => false
  end.

(** A table whose rows fit its schema, with no column named twice. *)
Definition wf_table (tbl : table) : bool :=
  bool_decide (NoDup (column_names tbl)) &&
  forallb (λ r, bool_decide (length r = length (columns tbl)) &&
                row_conforms (columns tbl) r) (rows tbl).

(** The world in which the loop of [main] starts: the engine was created
    and the source connection opened. *)
Definition connected (url : string) (w : world) : world :=
  tick (log CallConnect (tick (log (CallCreateEngine url) w))).

(** A log line that records the failure of table [t]. *)
Definition is_failure_log (t : string) (ev : event) : bool :=
  match ev with
  | ErrLatest t' _ | ErrFetch t' _ | ErrCopy t' _ => bool_decide (t' = t)
  | _ => false
  end.


(** ** Sample worlds *)

Definition demo_params : db_params :=
  DbParams "10.0.0.5" "sensors" "etl" "secret" "5432".
Definition demo_url : string := "postgresql://etl@localhost/replica".
Definition demo_engine : engine := Engine demo_url.
Definition demo_conn : connection := Connection demo_params.

Definition demo_environ : gmap string string :=
  {[ "SOURCE_DB_HOST" := "10.0.0.5"; "SOURCE_DB_NAME" := "sensors";
     "SOURCE_DB_USER" := "etl"; "SOURCE_DB_PASSWORD" := "secret";
     "SOURCE_DB_PORT" := "5432"; "DEST_DB_URL" := demo_url ]}.

(** A table with a [datetime] timestamp column... *)
Definition events_schema : list (string * sqltype) :=
  [("id", TInteger); ("ts", TTimestamp)].
(** ... and one whose timestamps are integers (seconds since the epoch). *)
Definition epoch_schema : list (string * sqltype) :=
  [("id", TInteger); ("ts", TInteger)].

(** Three events in the source, an empty destination table. *)
Definition w_events : world :=
  World demo_environ
    {[ "events" := Table events_schema
         [[VInt 1; VDatetime 1000]; [VInt 2; VDatetime 1005];
          [VInt 3; VDatetime 1010]] ]}
    {[ "events" := Table events_schema [] ]}
    [] [].


(** Integer timestamps; the destination already holds the row stamped 0,
    so its watermark is 0. *)
Definition w_epoch : world :=
  World demo_environ
    {[ "events" := Table epoch_schema [[VInt 1; VInt 0]; [VInt 2; VInt 5]] ]}
    {[ "events" := Table epoch_schema [[VInt 1; VInt 0]] ]}
    [] [].

(** Three tables; the source lacks the second one. *)
Definition w_abc : world :=
  World demo_environ
    {[ "a" := Table events_schema [[VInt 1; VDatetime 1000]];
       "c" := Table events_schema [[VInt 7; VDatetime 2000]] ]}
    {[ "a" := Table events_schema [];
       "b" := Table events_schema [];
       "c" := Table events_schema [] ]}
    [] [].

(** The sixth external call of the run, the query that verifies the first
    table after its load, loses the connection. *)
Definition w_verify_fault : world :=
  World demo_environ
    {[ "a" := Table events_schema [[VInt 1; VDatetime 1000]];
       "c" := Table events_schema [[VInt 7; VDatetime 2000]] ]}
    {[ "a" := Table events_schema [];
       "c" := Table events_schema [] ]}
    [false; false; false; false; false; true] [].

(** The state of [w_events] once a run has copied everything. *)
Definition w_events_synced : world :=
  World demo_environ
    {[ "events" := Table events_schema
         [[VInt 1; VDatetime 1000]; [VInt 2; VDatetime 1005];
          [VInt 3; VDatetime 1010]] ]}
    {[ "events" := Table events_schema
         [[VInt 1; VDatetime 1000]; [VInt 2; VDatetime 1005];
          [VInt 3; VDatetime 1010]] ]}
    [] [].

Definition one_event : DataFrame :=
  mkDataFrame [[VInt 4; VDatetime 1015]] ["id"; "ts"].

(** ** Vocabulary of the further properties *)

(** The destination [db'] is [db] with rows appended: every table of [db]
    is still there with its schema and its rows as a prefix, and there is
    no table that [db] lacks. *)
Definition grows_from (db db' : gmap string table) : Prop :=
  ∀ t, match db !! t with
       | Some td =>
           ∃ new, db' !! t = Some (Table (columns td) (rows td ++ new))
       | None => db' !! t = None
       end.




(** The number of rows the log reports as copied to table [t]. *)
Definition rows_reported_for (t : string) (tr : list event) : nat :=
  sum_list
    (omap (λ e, match e with
                | InfoCopied n t' => if decide (t' = t) then Some n else None
                | _ => None
                end) tr).

(** What one log line reports as copied to table [t]. *)
Definition reported (t : string) (e : event) : nat :=
  match e with
  | InfoCopied n t' => if decide (t' = t) then n else 0%nat
  | _ => 0%nat
  end.

(** The number of rows of table [t], 0 for a table that does not exist. *)
Definition table_size (db : gmap string table) (t : string) : nat :=
  from_option (λ tbl, length (rows tbl)) 0%nat (db !! t).

(** Every table of the database is well formed. *)
Definition wf_db (db : gmap string table) : bool :=
  forallb (λ p, wf_table p.2) (map_to_list db).

(** The value [get_env_var] returns for a variable that is set. *)
Definition env_value (env : gmap string string) (var : string) : string :=
  default "" (env !! var).

(** The configuration the module-level code builds from the environment. *)
Definition config_of (env : gmap string string) : db_params * string :=
  (DbParams (env_value env "SOURCE_DB_HOST") (env_value env "SOURCE_DB_NAME")
     (env_value env "SOURCE_DB_USER") (env_value env "SOURCE_DB_PASSWORD")
     (env_value env "SOURCE_DB_PORT"),
   env_value env "DEST_DB_URL").

(** The first required variable, in reading order, that is not set. *)
Definition first_unset (env : gmap string string) : option string :=
  List.find (λ var, negb (is_set env var)) required_vars.

(** The destination holds the first two events, the source a third. *)
Definition w_events_behind : world :=
  World demo_environ
    {[ "events" := Table events_schema
         [[VInt 1; VDatetime 1000]; [VInt 2; VDatetime 1005];
          [VInt 3; VDatetime 1010]] ]}
    {[ "events" := Table events_schema
         [[VInt 1; VDatetime 1000]; [VInt 2; VDatetime 1005]] ]}
    [] [].

(** The destination has no table "events". *)
Definition w_no_dest_table : world :=
  World demo_environ
    {[ "events" := Table events_schema [[VInt 1; VDatetime 1000]] ]}
    ∅ [] [].

(** The port and the destination URL are not set, the user is empty. *)
Definition w_bad_environ : world :=
  World {[ "SOURCE_DB_HOST" := "10.0.0.5"; "SOURCE_DB_NAME" := "sensors";
           "SOURCE_DB_USER" := ""; "SOURCE_DB_PASSWORD" := "secret" ]}
    (source_db w_events) (dest_db w_events) [] [].

(** * Properties *)

(** ** The order on values *)

Section ValueOrder.

Local Lemma string_leb_le (a b : string) :
  String.leb a b = true ↔ String.le a b.
Proof. unfold String.le. by rewrite Is_true_true. Qed.


Lemma value_leb_refl v : value_leb v v = true.
Proof.
  destruct v; simpl; try lia.
  apply string_leb_le. reflexivity.
Qed.

Lemma value_leb_trans a b c :
  value_leb a b = true → value_leb b c = true → value_leb a c = true.
Proof.
  destruct a, b, c; simpl; try lia.
  rewrite !string_leb_le. apply transitivity.
Qed.


Lemma value_leb_total a b : value_leb a b = true ∨ value_leb b a = true.
Proof.
  destruct a, b; simpl; try lia.
  rewrite !string_leb_le. apply total, _.
Qed.





Lemma value_max_None_l v : value_max VNone v = v.
Proof. done. Qed.

Lemma value_max_None_r v : value_max v VNone = v.
Proof. by destruct v. Qed.

Lemma value_max_cases a b : value_max a b = a ∨ value_max a b = b.
Proof.
  destruct a, b; simpl; auto; case_match; auto.
Qed.

Lemma value_max_ub_l a b : a ≠ VNone → value_leb a (value_max a b) = true.
Proof.
  intros Ha. destruct (decide (b = VNone)) as [-> |Hb].
  { rewrite value_max_None_r. apply value_leb_refl. }
  assert (value_max a b = if value_leb a b then b else a) as ->
    by by destruct a, b.
  destruct (value_leb a b) eqn:E; [done | apply value_leb_refl].
Qed.

Lemma value_max_ub_r a b : b ≠ VNone → value_leb b (value_max a b) = true.
Proof.
  intros Hb. destruct (decide (a = VNone)) as [-> |Ha].
  { apply value_leb_refl. }
  assert (value_max a b = if value_leb a b then b else a) as ->
    by by destruct a, b.
  destruct (value_leb a b) eqn:E; [apply value_leb_refl |].
  destruct (value_leb_total a b); congruence.
Qed.

Lemma value_max_None a b : value_max a b = VNone → a = VNone ∧ b = VNone.
Proof. destruct a, b; simpl; try done; case_match; done. Qed.

(** [MAX] is an upper bound of the non-NULL values... *)
Lemma sql_max_ub vs v :
  v ∈ vs → v ≠ VNone → value_leb v (sql_max vs) = true.
Proof.
  induction vs as [|x vs IH]; [by intros ?%elem_of_nil |].
  intros [-> |Hin]%elem_of_cons Hv; simpl.
  - by apply value_max_ub_l.
  - specialize (IH Hin Hv).
    eapply value_leb_trans; [exact IH |].
    apply value_max_ub_r. intros E. rewrite E in IH. by destruct v.
Qed.

(** ... and one of them, unless there is none. *)
Lemma sql_max_elem vs : sql_max vs = VNone ∨ sql_max vs ∈ vs.
Proof.
  induction vs as [|x vs IH]; [by left |]. simpl.
  destruct (value_max_cases x (sql_max vs)) as [-> | ->].
  - destruct (decide (x = VNone)); [by left | right; left].
  - destruct IH; [by left | right; by right].
Qed.

Lemma sql_max_None vs : sql_max vs = VNone ↔ ∀ v, v ∈ vs → v = VNone.
Proof.
  split.
  - intros H v Hin. destruct (decide (v = VNone)) as [|Hv]; [done |].
    pose proof (sql_max_ub _ _ Hin Hv) as Hle. rewrite H in Hle.
    by destruct v.
  - intros H. destruct (sql_max_elem vs) as [|Hin]; [done |]. by apply H.
Qed.

End ValueOrder.

(** ** How each function runs *)

Section Execution.

Implicit Types (w : world) (t c : string) (eng : engine)
  (conn : connection) (df : DataFrame).

Lemma get_latest_timestamp_eq eng t c w :
  get_latest_timestamp eng t c w =
  let w1 := tick (log (CallSelectMax t c) w) in
  if fault_next w then (Exit 1, log (ErrLatest t OperationalError) w1)
  else match select_max (dest_db w) t c with
       | inl e => (Exit 1, log (ErrLatest t e) w1)
       | inr v => (Ret v, w1)
       end.
Proof.
  unfold get_latest_timestamp, try_except, execute_scalar, bind, emit,
    external_call, sys_exit.
  change (fault_next (log (CallSelectMax t c) w)) with (fault_next w).
  destruct (fault_next w); [done |]. simpl.
  by destruct (select_max (dest_db w) t c).
Qed.

Lemma fetch_incremental_data_eq conn t c last w :
  fetch_incremental_data conn t c last w =
  let q := fetch_query t c last in
  let p := fetch_param last in
  let w1 := tick (log (CallExecute q p) w) in
  if fault_next w then (Exit 1, log (ErrFetch t OperationalError) w1)
  else match run_query (source_db w) q p with
       | inl e => (Exit 1, log (ErrFetch t e) w1)
       | inr r => (Ret (mkDataFrame r.2 r.1), w1)
       end.
Proof.
  unfold fetch_incremental_data, try_except, cursor_execute, bind, emit,
    external_call, sys_exit, fetch_query, fetch_param, ret.
  set (q := if truthy last then _ else _).
  set (p := if truthy last then _ else _).
  change (fault_next (log (CallExecute q p) w)) with (fault_next w).
  destruct (fault_next w); [done |]. simpl.
  by destruct (run_query (source_db w) q p) as [e|[cols data]].
Qed.

Lemma to_sql_eq df t eng w :
  to_sql df t eng w =
  let w1 := tick (log (CallToSql t (df_len df)) w) in
  if fault_next w then (Raise OperationalError, w1)
  else match append_frame (dest_db w) t df with
       | inl e => (Raise e, w1)
       | inr db' => (Ret tt, set_dest_db db' w1)
       end.
Proof.
  unfold to_sql, bind, emit, external_call.
  change (fault_next (log (CallToSql t (df_len df)) w)) with (fault_next w).
  by destruct (fault_next w).
Qed.

Lemma copy_empty_eq eng df t c w :
  df_empty df = true →
  copy_data_to_other_postgres eng df t c w =
  (Ret VNone, log (InfoNoNewData t) w).
Proof. intros H. unfold copy_data_to_other_postgres. by rewrite H. Qed.

Lemma copy_nonempty_eq eng df t c w :
  df_empty df = false →
  copy_data_to_other_postgres eng df t c w =
  let w1 := tick (log (CallToSql t (df_len df)) w) in
  if fault_next w then (Exit 1, log (ErrCopy t OperationalError) w1)
  else match append_frame (dest_db w) t df with
       | inl e => (Exit 1, log (ErrCopy t e) w1)
       | inr db' =>
           let w2 := log (InfoCopied (df_len df) t) (set_dest_db db' w1) in
           let w3 := tick (log (CallSelectMax t c) w2) in
           if fault_next w1
           then (Exit 1, log (ErrLatest t OperationalError) w3)
           else match select_max db' t c with
                | inl e => (Exit 1, log (ErrLatest t e) w3)
                | inr v => (Ret VNone, log (InfoMaxAfter c t v) w3)
                end
       end.
Proof.
  intros H. unfold copy_data_to_other_postgres. rewrite H.
  unfold bind at 1. unfold try_except at 1. unfold bind at 1.
  rewrite to_sql_eq. cbv zeta.
  destruct (fault_next w); [done |].
  destruct (append_frame (dest_db w) t df) as [e|db']; [done |].
  unfold bind at 1. unfold emit at 1. unfold bind at 1.
  rewrite get_latest_timestamp_eq. cbv zeta.
  change (fault_next (log _ (set_dest_db db' ?x))) with (fault_next x).
  destruct (fault_next _); [done |].
  change (dest_db (log _ (set_dest_db db' _))) with db'.
  by destruct (select_max db' t c).
Qed.

End Execution.

(** ** The database operations *)

Section Database.

Implicit Types (db : gmap string table) (tbl : table) (t c : string).



Lemma find_column_is_Some c cols :
  is_Some (find_column c cols) ↔ c ∈ cols.*1.
Proof.
  induction cols as [|[c' ty'] cols IH]; simpl.
  - rewrite elem_of_nil. split; [by intros [? ?] | done].
  - rewrite elem_of_cons. case_decide as Hc.
    + split; [by left | by eauto].
    + rewrite fmap_is_Some, IH. split; [by right | by intros [|]].
Qed.



Lemma column_values_app i (rs1 rs2 : list (list value)) :
  column_values i (rs1 ++ rs2) = column_values i rs1 ++ column_values i rs2.
Proof. apply fmap_app. Qed.


(** Appending to an existing table. *)
Lemma append_frame_existing db t df tbl db' :
  db !! t = Some tbl →
  append_frame db t df = inr db' →
  forallb (λ c, bool_decide (c ∈ column_names tbl)) (df_columns df) = true ∧
  db' = <[t := Table (columns tbl)
                 (rows tbl ++
                  (project_row (columns tbl) (df_columns df) <$> df_data df))]> db.
Proof.
  intros Ht. unfold append_frame, insert_rows. rewrite Ht.
  destruct (forallb _ (df_columns df)); [| done].
  destruct (forallb _ _); [| done]. by intros [= <-].
Qed.

Lemma append_frame_other db t df db' t' :
  t' ≠ t → append_frame db t df = inr db' → db' !! t' = db !! t'.
Proof.
  intros Hne. unfold append_frame.
  destruct (db !! t) as [tbl|].
  - destruct (insert_rows _ _ _); [done |].
    intros [= <-]. by rewrite lookup_insert_ne.
  - intros [= <-]. by rewrite lookup_insert_ne.
Qed.

Lemma select_max_inr db t c wm :
  select_max db t c = inr wm ↔
  ∃ tbl j ty, db !! t = Some tbl ∧
    find_column c (columns tbl) = Some (j, ty) ∧
    wm = sql_max (column_values j (rows tbl)).
Proof.
  unfold select_max. split.
  - destruct (db !! t) as [tbl|]; [| done].
    destruct (find_column c (columns tbl)) as [[j ty]|] eqn:E; [| done].
    intros [= <-]. by exists tbl, j, ty.
  - intros (tbl & j & ty & -> & -> & ->). done.
Qed.











End Database.

(** ** One table *)

(** Runs the body of the loop symbolically: every test the run depends on
    becomes a case. *)
Ltac run_step :=
  match goal with
  | |- context [get_latest_timestamp _ _ _ _] =>
      rewrite get_latest_timestamp_eq; cbv zeta
  | |- context [fetch_incremental_data _ _ _ _ _] =>
      rewrite fetch_incremental_data_eq; cbv zeta
  | |- context [copy_data_to_other_postgres _ ?df _ _ _] =>
      let E := fresh "Hempty" in
      destruct (df_empty df) eqn:E;
      [rewrite (copy_empty_eq _ _ _ _ _ E)
      |rewrite (copy_nonempty_eq _ _ _ _ _ E); cbv zeta]
  | |- context [if fault_next ?w then _ else _] =>
      let E := fresh "Hfault" in destruct (fault_next w) eqn:E
  | |- context [match select_max ?d ?t ?c with _ => _ end] =>
      let E := fresh "Hmax" in destruct (select_max d t c) eqn:E
  | |- context [match run_query ?d ?q ?p with _ => _ end] =>
      let E := fresh "Hquery" in destruct (run_query d q p) as [|[? ?]] eqn:E
  | |- context [match append_frame ?d ?t ?df with _ => _ end] =>
      let E := fresh "Hload" in destruct (append_frame d t df) eqn:E
  end; cbv beta iota.

Ltac run_sync :=
  unfold sync_table, bind, emit, ret; cbv beta iota; repeat run_step.

Section OneTable.

Context (eng : engine) (conn : connection) (c t : string).

(** An exception never leaves the body of the loop: it returns, or the
    process exits with status 1. *)
Lemma sync_table_outcome w :
  (sync_table eng conn c t w).1 = Ret tt ∨
  (sync_table eng conn c t w).1 = Exit 1.
Proof. run_sync; auto. Qed.

(** The source is only read, and the environment is left alone. *)
Lemma sync_table_source w :
  source_db (sync_table eng conn c t w).2 = source_db w ∧
  environ (sync_table eng conn c t w).2 = environ w.
Proof. run_sync; done. Qed.

(** The other tables of the destination are not touched. *)
Lemma sync_table_other w t' :
  t' ≠ t →
  dest_db (sync_table eng conn c t w).2 !! t' = dest_db w !! t'.
Proof.
  intros Hne. run_sync; try done.
  all: simpl; by eapply append_frame_other.
Qed.



End OneTable.

(** ** The loop over the tables *)

Section Loop.

Context (eng : engine) (conn : connection) (c : string).

Local Abbreviation body := (sync_table eng conn c).

Lemma for_each_cons t tables w :
  for_each (t :: tables) body w =
  match (body t w).1 with
  | Ret _ => for_each tables body (body t w).2
  | _ => (Exit 1, (body t w).2)
  end.
Proof.
  simpl. unfold bind.
  destruct (sync_table_outcome eng conn c t w) as [E|E];
    destruct (body t w) as [o w1]; simpl in E; by subst.
Qed.

Lemma for_each_outcome tables w :
  (for_each tables body w).1 = Ret tt ∨
  (for_each tables body w).1 = Exit 1.
Proof.
  revert w. induction tables as [|t tables IH]; intros w; [by left |].
  rewrite for_each_cons. destruct (body t w).1; auto.
Qed.

Lemma for_each_source tables w :
  source_db (for_each tables body w).2 = source_db w.
Proof.
  revert w. induction tables as [|t tables IH]; intros w; [done |].
  rewrite for_each_cons.
  destruct (body t w).1; simpl; rewrite ?IH; apply sync_table_source.
Qed.




End Loop.

(** ** A whole run *)

Section Run.

Context (params : db_params) (url : string) (c : string).

Local Abbreviation body := (sync_table (Engine url) (Connection params) c).

Lemma main_eq tables w :
  main params url tables c w =
  let w1 := tick (log (CallCreateEngine url) w) in
  if fault_next w then (Exit 1, log (ErrEngine OperationalError) w1)
  else if fault_next w1
       then (Exit 1, log (ErrConnect OperationalError)
                       (tick (log CallConnect w1)))
       else for_each tables body (connected url w).
Proof.
  unfold main, bind, create_engine_for_other_postgres, connect_to_postgres,
    try_except, create_engine, connect, bind, emit, external_call, sys_exit,
    ret, connected.
  change (fault_next (log (CallCreateEngine url) w)) with (fault_next w).
  destruct (fault_next w); [done |]. cbv beta iota zeta.
  change (fault_next (log CallConnect ?x)) with (fault_next x).
  by destruct (fault_next _).
Qed.

Lemma main_outcome tables w :
  (main params url tables c w).1 = Ret tt ∨
  (main params url tables c w).1 = Exit 1.
Proof.
  rewrite main_eq. cbv zeta. repeat case_match; auto.
  apply for_each_outcome.
Qed.




End Run.



(** ** Failure of one table *)

Section Failure.

Context (params : db_params) (url : string) (c : string).

Local Abbreviation body := (sync_table (Engine url) (Connection params) c).

(** A table that is not processed to the end leaves an error line about
    itself as the last line of the log. *)
Lemma sync_table_failure_logged t w :
  (body t w).1 ≠ Ret tt →
  is_failure_log t <$> last (trace (body t w).2) = Some true.
Proof.
  run_sync; simpl; try done; intros _; rewrite last_snoc; simpl;
    by rewrite bool_decide_eq_true_2.
Qed.

Lemma for_each_app pre post w :
  for_each (pre ++ post) body w =
  match (for_each pre body w).1 with
  | Ret _ => for_each post body (for_each pre body w).2
  | _ => for_each pre body w
  end.
Proof.
  revert w. induction pre as [|t pre IH]; intros w; [done |].
  rewrite <- app_comm_cons, !for_each_cons.
  destruct (body t w).1; [apply IH | done..].
Qed.

(** C1, as amended.  One failing table ends the run: when the tables
    before [t] were processed to the end and the processing of [t] does
    not return (resolving its watermark, fetching or loading failed), the
    run stops there with exit status 1.  The failure is the last line of
    the log, the state is the one [t] left, with the other tables of the
    destination as the earlier tables left them, and the tables after
    [t] are not processed. *)
Theorem failure_ends_run pre t post w w1 :
  main params url pre c w = (Ret tt, w1) →
  (body t w1).1 ≠ Ret tt →
  main params url (pre ++ t :: post) c w = (Exit 1, (body t w1).2) ∧
  is_failure_log t <$> last (trace (body t w1).2) = Some true ∧
  ∀ t', t' ≠ t → dest_db (body t w1).2 !! t' = dest_db w1 !! t'.
Proof.
  intros Hpre Hfail.
  split; [| split; [by apply sync_table_failure_logged
                   | intros t' Hne; by apply sync_table_other]].
  revert Hpre. rewrite !main_eq. cbv zeta.
  destruct (fault_next w); [done |].
  destruct (fault_next _); [done |].
  intros Hpre. rewrite for_each_app, Hpre. cbn [fst snd].
  rewrite for_each_cons.
  destruct (sync_table_outcome (Engine url) (Connection params) c t w1)
    as [E|E]; [done | by rewrite E].
Qed.

End Failure.

Lemma failure_ends_run_witness :
  let w1 := (main demo_params demo_url ["a"] "ts" w_abc).2 in
  let failed := sync_table demo_engine demo_conn "ts" "b" w1 in
  main demo_params demo_url (["a"] ++ "b" :: ["c"]) "ts" w_abc =
    (Exit 1, failed.2) ∧
  is_failure_log "b" <$> last (trace failed.2) = Some true ∧
  ∀ t', t' ≠ "b" → dest_db failed.2 !! t' = dest_db w1 !! t'.
Proof.
  cbv zeta.
  apply (failure_ends_run demo_params demo_url "ts" ["a"] "b" ["c"] w_abc).
  - vm_compute. reflexivity.
  - vm_compute. discriminate.
Defined.

(** C1, counterexample.  The source has no table "b".  Table "a" is
    copied, the fetch of "b" fails, the process exits with status 1 and
    table "c" is never processed: its row stays uncopied. *)
Lemma failed_fetch_aborts_run :
  let run := main demo_params demo_url ["a"; "b"; "c"] "ts" w_abc in
  run.1 = Exit 1 ∧
  trace run.2 =
    [CallCreateEngine demo_url; CallConnect;
     InfoProcessing "a"; CallSelectMax "a" "ts";
     CallExecute (SelectAll "a") None; CallToSql "a" 1;
     InfoCopied 1 "a"; CallSelectMax "a" "ts";
     InfoMaxAfter "ts" "a" (VDatetime 1000);
     InfoProcessing "b"; CallSelectMax "b" "ts";
     CallExecute (SelectAll "b") None; ErrFetch "b" ProgrammingError] ∧
  rows <$> (source_db run.2 !! "c") = Some [[VInt 7; VDatetime 2000]] ∧
  rows <$> (dest_db run.2 !! "c") = Some [].
Proof. vm_compute. done. Qed.

(** ** The order of the operations *)

Section Order.

Context (params : db_params) (url : string) (c : string).

Local Abbreviation body := (sync_table (Engine url) (Connection params) c).

Lemma ops_app tr1 tr2 : ops (tr1 ++ tr2) = ops tr1 ++ ops tr2.
Proof. apply omap_app. Qed.

Lemma table_ops_prefix t flag : table_ops t flag `prefix_of` table_ops t true.
Proof. destruct flag; [done |]. by eexists [_; _]. Qed.

Lemma op_of_fetch t v p :
  op_of (CallExecute (fetch_query t c v) p) = Some (OpSelect t).
Proof. unfold fetch_query. by destruct (truthy v). Qed.

Lemma ops_snoc tr e :
  ops (tr ++ [e]) = ops tr ++ from_option (λ o, [o]) [] (op_of e).
Proof. rewrite ops_app. unfold ops at 2. simpl. by destruct (op_of e). Qed.

(** The operations of one table. *)
Lemma sync_table_ops t w :
  ∃ done,
    ops (trace (body t w).2) = ops (trace w) ++ done ∧
    match (body t w).1 with
    | Ret _ =>
        done = table_ops t (batch_nonempty (source_db w) (dest_db w) t c)
    | _ => done `prefix_of` table_ops t true
    end.
Proof.
  run_sync; cbn [fst snd].
  all: simpl trace; rewrite !ops_snoc, ?op_of_fetch; cbn [op_of from_option].
  all: rewrite <- ?(assoc_L (++)); cbn [app].
  all: eexists; (split; [reflexivity |]).
  all: try (by eexists [_; _; _]).
  all: try (by eexists [_; _]).
  all: try (by eexists [_]).
  all: try (by eexists []).
  all: unfold batch_nonempty.
  all: change (select_max (dest_db w) t c = inr v) in Hmax.
  all: change (run_query (source_db w) (fetch_query t c v) (fetch_param v)
               = inr (l, l0)) in Hquery.
  all: rewrite Hmax, Hquery; cbn [fst snd] in *; by rewrite Hempty.
Qed.

(** The operations of the loop: table after table, in the order of the
    list. *)
Lemma for_each_ops tables w :
  ∃ flags done,
    length flags = length tables ∧
    ops (trace (for_each tables body w).2) = ops (trace w) ++ done ∧
    match (for_each tables body w).1 with
    | Ret _ => done = concat (zip_with table_ops tables flags)
    | _ => done `prefix_of` concat (zip_with table_ops tables flags)
    end.
Proof.
  revert w. induction tables as [|t tables IH]; intros w.
  { exists [], []. simpl. by rewrite app_nil_r. }
  rewrite for_each_cons.
  destruct (sync_table_ops t w) as (done_t & Hops & Hshape).
  destruct (body t w).1 as [[]| |] eqn:Hbody.
  - destruct (IH (body t w).2) as (flags & done & Hlen & Hops' & Hshape').
    exists (batch_nonempty (source_db w) (dest_db w) t c :: flags),
      (done_t ++ done).
    split_and!.
    + simpl. by rewrite Hlen.
    + by rewrite Hops', Hops, (assoc_L (++)).
    + subst done_t. cbn [zip_with concat].
      destruct (for_each tables body (body t w).2).1;
        [by subst | by apply prefix_app..].
  - exists (true :: replicate (length tables) false), done_t.
    split_and!; [simpl; by rewrite length_replicate | done |].
    cbn [zip_with concat]. by apply prefix_app_r.
  - exists (true :: replicate (length tables) false), done_t.
    split_and!; [simpl; by rewrite length_replicate | done |].
    cbn [zip_with concat]. by apply prefix_app_r.
Qed.

(** C8, as amended.  Sequential ordering.  (1) One table: the watermark
    is resolved, then the batch is fetched, and only when the batch has
    rows it is loaded and the watermark is read again; a table that is
    not processed to the end went through a prefix of these four
    operations.  (2) A run: the operations are those of the tables, one
    table after the other in the order of the list; a run that exits
    stops inside them and processes no further table. *)
Theorem operations_in_order tables w :
  (∀ t w0, ∃ done,
     ops (trace (body t w0).2) = ops (trace w0) ++ done ∧
     match (body t w0).1 with
     | Ret _ =>
         done = table_ops t
                  (batch_nonempty (source_db w0) (dest_db w0) t c)
     | _ => done `prefix_of` table_ops t true
     end) ∧
  ∃ flags done,
    length flags = length tables ∧
    ops (trace (main params url tables c w).2) = ops (trace w) ++ done ∧
    match (main params url tables c w).1 with
    | Ret _ => done = concat (zip_with table_ops tables flags)
    | _ => done `prefix_of` concat (zip_with table_ops tables flags)
    end.
Proof.
  split; [apply sync_table_ops |].
  rewrite main_eq. cbv zeta.
  destruct (fault_next w).
  { exists (replicate (length tables) false), []. split_and!.
    - by rewrite length_replicate.
    - simpl. rewrite !ops_snoc. simpl. by rewrite !app_nil_r.
    - apply prefix_nil. }
  destruct (fault_next _).
  { exists (replicate (length tables) false), []. split_and!.
    - by rewrite length_replicate.
    - simpl. rewrite !ops_snoc. simpl. by rewrite !app_nil_r.
    - apply prefix_nil. }
  destruct (for_each_ops tables (connected url w))
    as (flags & done & Hlen & Hops & Hshape).
  exists flags, done. split_and!; [done | | done].
  rewrite Hops. simpl. rewrite !ops_snoc. simpl. by rewrite !app_nil_r.
Qed.

End Order.

(** C8, counterexample.  The destination already holds every row of the
    source.  The run processes the table to the end and returns, yet it
    performs two operations only: neither a load nor the verification
    query takes place. *)
Lemma empty_batch_skips_verification :
  let run := main demo_params demo_url ["events"] "ts" w_events_synced in
  run.1 = Ret tt ∧
  trace run.2 =
    [CallCreateEngine demo_url; CallConnect;
     InfoProcessing "events"; CallSelectMax "events" "ts";
     CallExecute (SelectWhereGt "events" "ts") (Some (VDatetime 1010));
     InfoNoNewData "events"] ∧
  ops (trace run.2) = [OpMax "events"; OpSelect "events"].
Proof. vm_compute. done. Qed.

(** ** The load *)

Section Load.

Context (eng : engine) (conn : connection) (c : string).


(** C6, as amended.  The load returns no value: for every batch the call
    either returns [None] or ends the process with status 1.  The number
    of rows written, [len(df)], is only logged, and only for a batch that
    is not empty; an empty batch logs "No new data". *)
Theorem copy_returns_None df t w :
  let r := copy_data_to_other_postgres eng df t c w in
  match r.1 with
  | Ret v =>
      v = VNone ∧
      if df_empty df then trace r.2 = trace w ++ [InfoNoNewData t]
      else ∃ wm, trace r.2 =
                 trace w ++ [CallToSql t (df_len df);
                             InfoCopied (df_len df) t;
                             CallSelectMax t c; InfoMaxAfter c t wm]
  | Raise _ => False
  | Exit code => code = 1
  end.
Proof.
  cbv zeta. destruct (df_empty df) eqn:Hempty.
  { by rewrite (copy_empty_eq _ _ _ _ _ Hempty). }
  rewrite (copy_nonempty_eq _ _ _ _ _ Hempty). cbv zeta.
  destruct (fault_next w); [done |].
  destruct (append_frame (dest_db w) t df) as [|db']; [done |].
  destruct (fault_next _); [done |].
  destruct (select_max db' t c) as [|wm]; [done |].
  simpl. split; [done |]. exists wm. by rewrite <- !(assoc_L (++)).
Qed.

(** C7, as amended.  Post-load verification.  (1) The first thing the
    processing of a table does is to resolve the watermark.  (2) After an
    empty batch the watermark is not read again.  (3) After a batch that
    is not empty was written, the watermark is read again; when that
    query succeeds its result is logged and the call returns, and when it
    fails the failure is logged and the process exits with status 1, the
    batch staying written. *)
Theorem post_load_verification df t w :
  (∃ tr, trace (sync_table eng conn c t w).2 =
         trace w ++ InfoProcessing t :: CallSelectMax t c :: tr) ∧
  (df_empty df = true →
   ops (trace (copy_data_to_other_postgres eng df t c w).2) =
   ops (trace w)) ∧
  (df_empty df = false →
   fault_next w = false →
   ∀ db', append_frame (dest_db w) t df = inr db' →
     let r := copy_data_to_other_postgres eng df t c w in
     dest_db r.2 = db' ∧
     match (if fault_next (tick w) then inl OperationalError
            else select_max db' t c) with
     | inl e => r.1 = Exit 1 ∧ last (trace r.2) = Some (ErrLatest t e)
     | inr wm =>
         r.1 = Ret VNone ∧ last (trace r.2) = Some (InfoMaxAfter c t wm)
     end).
Proof.
  split_and!.
  - run_sync; simpl; rewrite <- ?(assoc_L (++)); simpl; by eexists.
  - intros H. rewrite (copy_empty_eq _ _ _ _ _ H). simpl.
    rewrite ops_app. simpl. by rewrite app_nil_r.
  - intros Hempty Hfault db' Hload. cbv zeta.
    rewrite (copy_nonempty_eq _ _ _ _ _ Hempty). cbv zeta.
    rewrite Hfault, Hload.
    change (fault_next (tick (log ?e w))) with (fault_next (tick w)).
    destruct (fault_next (tick w)).
    { simpl. by rewrite last_snoc. }
    destruct (select_max db' t c); simpl; by rewrite last_snoc.
Qed.

End Load.


(** C6, counterexample.  A batch of one row is written to the
    destination, and what the call returns is [None], not the integer 1. *)
Lemma copy_of_one_row_returns_None :
  let r := copy_data_to_other_postgres demo_engine one_event "events" "ts"
             w_events_synced in
  r.1 = Ret VNone ∧
  (∀ n, r.1 ≠ Ret (VInt n)) ∧
  rows <$> (dest_db r.2 !! "events") =
    Some [[VInt 1; VDatetime 1000]; [VInt 2; VDatetime 1005];
          [VInt 3; VDatetime 1010]; [VInt 4; VDatetime 1015]].
Proof. vm_compute. done. Qed.

Lemma post_load_verification_witness :
  let w := set_faults [false; true] w_events_synced in
  let r := copy_data_to_other_postgres demo_engine one_event "events" "ts"
             w in
  r.1 = Exit 1 ∧
  last (trace r.2) = Some (ErrLatest "events" OperationalError) ∧
  length <$> (rows <$> (dest_db r.2 !! "events")) = Some 4%nat.
Proof.
  cbv zeta.
  destruct (post_load_verification demo_engine demo_conn "ts" one_event
              "events" (set_faults [false; true] w_events_synced))
    as (_ & _ & H).
  specialize (H eq_refl eq_refl _ eq_refl). cbv zeta in H.
  destruct H as [Hd [Hexit Hlast]].
  split_and!; [exact Hexit | exact Hlast |]. rewrite Hd. reflexivity.
Defined.

(** C7, counterexample.  The load of table "a" succeeds and the query that
    verifies it loses the connection.  The process exits with status 1:
    the table whose rows were written ends as a failure and table "c" is
    never processed. *)
Lemma failed_verification_aborts_run :
  let run := main demo_params demo_url ["a"; "c"] "ts" w_verify_fault in
  run.1 = Exit 1 ∧
  trace run.2 =
    [CallCreateEngine demo_url; CallConnect;
     InfoProcessing "a"; CallSelectMax "a" "ts";
     CallExecute (SelectAll "a") None; CallToSql "a" 1;
     InfoCopied 1 "a"; CallSelectMax "a" "ts";
     ErrLatest "a" OperationalError] ∧
  rows <$> (dest_db run.2 !! "a") = Some [[VInt 1; VDatetime 1000]] ∧
  rows <$> (dest_db run.2 !! "c") = Some [].
Proof. vm_compute. done. Qed.

(** ** The fetch *)

Section Fetch.

Context (conn : connection) (t c : string).

(** With a truthy watermark the fetch returns the rows of the source
    table whose timestamp is strictly greater, in the order of the
    table. *)
Lemma fetch_truthy_watermark wm w ts i ty :
  truthy wm = true →
  fault_next w = false →
  source_db w !! t = Some ts →
  find_column c (columns ts) = Some (i, ty) →
  conforms wm ty = true →
  (fetch_incremental_data conn t c wm w).1 =
  Ret (mkDataFrame (filter (λ r, sql_gt (cell r i) wm = true) (rows ts))
         (column_names ts)).
Proof.
  intros Hwm Hfault Hts Hcol Hty. rewrite fetch_incremental_data_eq.
  cbv zeta. rewrite Hfault. unfold fetch_query, fetch_param. rewrite Hwm.
  simpl. by rewrite Hts, Hcol, Hty.
Qed.

(** C10.  Falsy-watermark edge case: the fetch chooses between the
    incremental statement and the full copy by the truthiness of the
    watermark.  With a falsy watermark (0, the empty string) it runs
    exactly as with no watermark at all, and when it succeeds it returns
    every row of the source table, those already in the destination
    included. *)
Theorem falsy_watermark_full_copy wm w :
  truthy wm = false →
  fetch_incremental_data conn t c wm w =
    fetch_incremental_data conn t c VNone w ∧
  ∀ ts, source_db w !! t = Some ts →
        fault_next w = false →
        (fetch_incremental_data conn t c wm w).1 =
        Ret (mkDataFrame (rows ts) (column_names ts)).
Proof.
  intros Hwm. rewrite !fetch_incremental_data_eq. cbv zeta.
  unfold fetch_query, fetch_param. rewrite Hwm. simpl. split; [done |].
  intros ts -> ->. done.
Qed.

End Fetch.

Lemma falsy_watermark_full_copy_witness :
  select_max (dest_db w_epoch) "events" "ts" = inr (VInt 0) ∧
  (fetch_incremental_data demo_conn "events" "ts" (VInt 0) w_epoch).1 =
  Ret (mkDataFrame [[VInt 1; VInt 0]; [VInt 2; VInt 5]] ["id"; "ts"]).
Proof.
  split; [reflexivity |].
  destruct (falsy_watermark_full_copy demo_conn "events" "ts" (VInt 0)
              w_epoch eq_refl) as [_ H].
  exact (H (Table epoch_schema [[VInt 1; VInt 0]; [VInt 2; VInt 5]])
           eq_refl eq_refl).
Defined.

(** C2, the failing input.  The destination holds the row stamped 0, so
    the resolved watermark is the integer 0: present, but falsy.  The
    fetch runs the statement without a filter and returns both source
    rows, the one whose timestamp equals the watermark included; a run
    then writes that row to the destination a second time. *)
Lemma fetch_with_watermark_zero :
  select_max (dest_db w_epoch) "events" "ts" = inr (VInt 0) ∧
  sql_gt (VInt 0) (VInt 0) = false ∧
  fetch_incremental_data demo_conn "events" "ts" (VInt 0) w_epoch =
    (Ret (mkDataFrame [[VInt 1; VInt 0]; [VInt 2; VInt 5]] ["id"; "ts"]),
     tick (log (CallExecute (SelectAll "events") None) w_epoch)) ∧
  rows <$> (dest_db (main demo_params demo_url ["events"] "ts" w_epoch).2
            !! "events") =
    Some [[VInt 1; VInt 0]; [VInt 1; VInt 0]; [VInt 2; VInt 5]].
Proof. vm_compute. done. Qed.

(** ** The full copy *)

Section FullCopy.



Lemma wf_table_spec tbl :
  wf_table tbl = true ↔
  NoDup (column_names tbl) ∧
  ∀ r, r ∈ rows tbl →
    length r = length (columns tbl) ∧ row_conforms (columns tbl) r = true.
Proof.
  unfold wf_table. rewrite andb_true_iff, bool_decide_eq_true.
  rewrite forallb_forall. setoid_rewrite andb_true_iff.
  setoid_rewrite bool_decide_eq_true. setoid_rewrite <- list_elem_of_In.
  done.
Qed.




Context (eng : engine) (conn : connection) (c t : string).


End FullCopy.


(** ** The configuration *)

Section Configuration.

Lemma get_env_var_eq var w :
  get_env_var var w =
  if is_set (environ w) var
  then (Ret (default "" (environ w !! var)), w)
  else (Exit 1, log (ErrEnvNotSet var) w).
Proof.
  unfold get_env_var, bind, os_getenv, is_set.
  destruct (environ w !! var) as [v|]; [| done].
  by destruct (str_truthy v).
Qed.

(** With every variable set the script is [main] on their values. *)
Lemma script_configured tables c w :
  forallb (is_set (environ w)) required_vars = true →
  ∃ params url,
    environ w !! "DEST_DB_URL" = Some url ∧
    script tables c w = main params url tables c w.
Proof.
  simpl. rewrite !andb_true_iff. intros (H1 & H2 & H3 & H4 & H5 & H6 & _).
  unfold script, load_config, bind.
  rewrite get_env_var_eq, H1. cbv beta iota.
  rewrite get_env_var_eq, H2. cbv beta iota.
  rewrite get_env_var_eq, H3. cbv beta iota.
  rewrite get_env_var_eq, H4. cbv beta iota.
  rewrite get_env_var_eq, H5. cbv beta iota.
  rewrite get_env_var_eq, H6. cbv beta iota. unfold ret. cbn [fst snd].
  unfold is_set in H6. destruct (environ w !! "DEST_DB_URL") as [url|];
    [| done]. by eexists _, url.
Qed.

(** C9.  Fail-fast configuration: when one of the six required
    variables is missing (or empty), the script logs the first such
    variable and exits with status 1.  Nothing else happens: no call to a
    collaborator, no table processed, the destination unchanged. *)
Theorem missing_configuration_stops_script tables c w :
  forallb (is_set (environ w)) required_vars = false →
  ∃ var,
    var ∈ required_vars ∧
    is_set (environ w) var = false ∧
    script tables c w = (Exit 1, log (ErrEnvNotSet var) w).
Proof.
  intros Hmissing. unfold script, load_config, bind.
  rewrite get_env_var_eq.
  destruct (is_set (environ w) "SOURCE_DB_HOST") eqn:H1;
    [| eexists; split_and!; [| exact H1 | done]; set_solver].
  rewrite get_env_var_eq.
  destruct (is_set (environ w) "SOURCE_DB_NAME") eqn:H2;
    [| eexists; split_and!; [| exact H2 | done]; set_solver].
  rewrite get_env_var_eq.
  destruct (is_set (environ w) "SOURCE_DB_USER") eqn:H3;
    [| eexists; split_and!; [| exact H3 | done]; set_solver].
  rewrite get_env_var_eq.
  destruct (is_set (environ w) "SOURCE_DB_PASSWORD") eqn:H4;
    [| eexists; split_and!; [| exact H4 | done]; set_solver].
  rewrite get_env_var_eq.
  destruct (is_set (environ w) "SOURCE_DB_PORT") eqn:H5;
    [| eexists; split_and!; [| exact H5 | done]; set_solver].
  rewrite get_env_var_eq.
  destruct (is_set (environ w) "DEST_DB_URL") eqn:H6;
    [| eexists; split_and!; [| exact H6 | done]; set_solver].
  simpl in Hmissing. by rewrite H1, H2, H3, H4, H5, H6 in Hmissing.
Qed.

End Configuration.

Lemma missing_configuration_stops_script_witness :
  let w := World (delete "DEST_DB_URL" demo_environ) (source_db w_events)
             (dest_db w_events) [] [] in
  ∃ var,
    var ∈ required_vars ∧
    is_set (environ w) var = false ∧
    script ["events"] "ts" w = (Exit 1, log (ErrEnvNotSet var) w).
Proof.
  cbv zeta. apply missing_configuration_stops_script.
  vm_compute. reflexivity.
Defined.

(** ** A scenario *)

(** The source table holds three events and the destination is empty.
    The first run copies the three rows and the watermark becomes the
    latest of them; an event is then added to the source and the second
    run copies that row only; a third run copies nothing. *)
Example three_runs :
  let go := main demo_params demo_url ["events"] "ts" in
  let run1 := go w_events in
  let later :=
    set_source_db
      {[ "events" := Table events_schema
           [[VInt 1; VDatetime 1000]; [VInt 2; VDatetime 1005];
            [VInt 3; VDatetime 1010]; [VInt 4; VDatetime 1015]] ]}
      (set_trace [] run1.2) in
  let run2 := go later in
  let run3 := go (set_trace [] run2.2) in
  loads (trace run1.2) = [("events", 3%nat)] ∧
  select_max (dest_db run1.2) "events" "ts" = inr (VDatetime 1010) ∧
  loads (trace run2.2) = [("events", 1%nat)] ∧
  select_max (dest_db run2.2) "events" "ts" = inr (VDatetime 1015) ∧
  loads (trace run3.2) = [] ∧
  dest_db run3.2 = dest_db run2.2.
Proof. vm_compute. done. Qed.

(** * Further properties *)

(** ** What a run keeps *)

Section Invariants.

Context (eng : engine) (conn : connection) (c : string).

Local Abbreviation body := (sync_table eng conn c).

Lemma grows_from_refl db : grows_from db db.
Proof.
  intros t. destruct (db !! t) as [td|] eqn:E; [| done].
  exists []. rewrite app_nil_r. by destruct td.
Qed.

Lemma grows_from_trans db1 db2 db3 :
  grows_from db1 db2 → grows_from db2 db3 → grows_from db1 db3.
Proof.
  intros H12 H23 t. specialize (H12 t). specialize (H23 t).
  destruct (db1 !! t) as [td|].
  - destruct H12 as [new1 E]. rewrite E in H23. simpl in H23.
    destruct H23 as [new2 E']. exists (new1 ++ new2).
    by rewrite E', (assoc_L (++)).
  - by rewrite H12 in H23.
Qed.

Lemma append_frame_grows db t df td db' :
  db !! t = Some td → append_frame db t df = inr db' → grows_from db db'.
Proof.
  intros Ht Happ.
  destruct (append_frame_existing _ _ _ _ _ Ht Happ) as [_ ->].
  intros t'. destruct (decide (t' = t)) as [-> |Hne].
  - rewrite Ht, lookup_insert_eq. by eexists.
  - rewrite lookup_insert_ne by done. apply grows_from_refl.
Qed.

Lemma select_max_table db t c' wm :
  select_max db t c' = inr wm → is_Some (db !! t).
Proof. intros (td & ? & ? & -> & _)%select_max_inr. by eexists. Qed.

Lemma sync_table_grows t w :
  grows_from (dest_db w) (dest_db (body t w).2).
Proof.
  run_sync; simpl; try apply grows_from_refl.
  all: destruct (select_max_table _ _ _ _ Hmax) as [td Htd].
  all: by eapply append_frame_grows.
Qed.

Lemma for_each_grows tables w :
  grows_from (dest_db w) (dest_db (for_each tables body w).2).
Proof.
  revert w. induction tables as [|t tables IH]; intros w.
  { apply grows_from_refl. }
  rewrite for_each_cons. destruct (body t w).1 eqn:E; simpl;
    try apply sync_table_grows.
  eapply grows_from_trans; [apply sync_table_grows | apply IH].
Qed.

End Invariants.

(** ** Reading the configuration *)

Section ReadingConfiguration.

Lemma load_config_eq w :
  load_config w =
  match first_unset (environ w) with
  | Some var => (Exit 1, log (ErrEnvNotSet var) w)
  | None => (Ret (config_of (environ w)), w)
  end.
Proof.
  unfold load_config, bind, first_unset, config_of, env_value. simpl.
  rewrite get_env_var_eq.
  destruct (is_set (environ w) "SOURCE_DB_HOST"); [| done].
  rewrite get_env_var_eq.
  destruct (is_set (environ w) "SOURCE_DB_NAME"); [| done].
  rewrite get_env_var_eq.
  destruct (is_set (environ w) "SOURCE_DB_USER"); [| done].
  rewrite get_env_var_eq.
  destruct (is_set (environ w) "SOURCE_DB_PASSWORD"); [| done].
  rewrite get_env_var_eq.
  destruct (is_set (environ w) "SOURCE_DB_PORT"); [| done].
  rewrite get_env_var_eq.
  by destruct (is_set (environ w) "DEST_DB_URL").
Qed.

Lemma script_eq tables c w :
  script tables c w =
  match first_unset (environ w) with
  | Some var => (Exit 1, log (ErrEnvNotSet var) w)
  | None =>
      main (config_of (environ w)).1 (config_of (environ w)).2 tables c w
  end.
Proof.
  unfold script, bind. rewrite load_config_eq.
  by destruct (first_unset (environ w)).
Qed.

Lemma first_unset_None env :
  first_unset env = None ↔ forallb (is_set env) required_vars = true.
Proof.
  unfold first_unset. simpl.
  destruct (is_set env "SOURCE_DB_HOST"); [| done].
  destruct (is_set env "SOURCE_DB_NAME"); [| done].
  destruct (is_set env "SOURCE_DB_USER"); [| done].
  destruct (is_set env "SOURCE_DB_PASSWORD"); [| done].
  destruct (is_set env "SOURCE_DB_PORT"); [| done].
  by destruct (is_set env "DEST_DB_URL").
Qed.

(** X1.  With the six variables set, the script is [main] run on the
    values of the environment, unchanged and in their roles: reading the
    configuration logs nothing, calls no collaborator and changes
    nothing. *)
Theorem script_runs_main_on_environment tables c w :
  forallb (is_set (environ w)) required_vars = true →
  script tables c w =
  main (DbParams (env_value (environ w) "SOURCE_DB_HOST")
          (env_value (environ w) "SOURCE_DB_NAME")
          (env_value (environ w) "SOURCE_DB_USER")
          (env_value (environ w) "SOURCE_DB_PASSWORD")
          (env_value (environ w) "SOURCE_DB_PORT"))
       (env_value (environ w) "DEST_DB_URL") tables c w.
Proof.
  intros H%first_unset_None. by rewrite script_eq, H.
Qed.

(** X2.  The variables are checked in the order host, name, user,
    password, port, destination URL, and the script stops at the first
    one that is missing or empty: that variable is the one the error line
    names, whatever the state of the later ones. *)
Theorem first_missing_variable_is_reported tables c w var :
  first_unset (environ w) = Some var →
  script tables c w = (Exit 1, log (ErrEnvNotSet var) w).
Proof. intros H. by rewrite script_eq, H. Qed.

End ReadingConfiguration.

Lemma script_runs_main_on_environment_witness :
  script ["events"] "ts" w_events =
  main demo_params demo_url ["events"] "ts" w_events.
Proof.
  exact (script_runs_main_on_environment ["events"] "ts" w_events eq_refl).
Defined.

Lemma first_missing_variable_is_reported_witness :
  is_set (environ w_bad_environ) "SOURCE_DB_PORT" = false ∧
  is_set (environ w_bad_environ) "DEST_DB_URL" = false ∧
  script ["events"] "ts" w_bad_environ =
    (Exit 1, log (ErrEnvNotSet "SOURCE_DB_USER") w_bad_environ).
Proof.
  split_and!; [reflexivity | reflexivity |].
  exact (first_missing_variable_is_reported ["events"] "ts" w_bad_environ
           "SOURCE_DB_USER" eq_refl).
Defined.

(** ** What a run keeps, whatever happens *)

Section RunInvariants.

Context (params : db_params) (url : string) (c : string).

Local Abbreviation body := (sync_table (Engine url) (Connection params) c).

Lemma for_each_environ tables w :
  environ (for_each tables body w).2 = environ w.
Proof.
  revert w. induction tables as [|t tables IH]; intros w; [done |].
  rewrite for_each_cons.
  destruct (body t w).1; simpl; rewrite ?IH; apply sync_table_source.
Qed.

(** X3.  A run only reads the source: whatever the tables, the faults
    and the outcome, the source database and the environment are the same
    after [main] as before. *)
Theorem main_leaves_source_unchanged tables w :
  source_db (main params url tables c w).2 = source_db w ∧
  environ (main params url tables c w).2 = environ w.
Proof.
  rewrite main_eq. cbv zeta. repeat case_match; try done.
  by rewrite for_each_source, for_each_environ.
Qed.


Lemma value_leb_None_l v : value_leb VNone v = true.
Proof. by destruct v. Qed.

Lemma sql_max_app_leb (old new : list value) :
  value_leb (sql_max old) (sql_max (old ++ new)) = true.
Proof.
  destruct (sql_max_elem old) as [-> |Hin]; [apply value_leb_None_l |].
  destruct (decide (sql_max old = VNone)) as [-> |Hne];
    [apply value_leb_None_l |].
  apply sql_max_ub; [| done]. apply elem_of_app. by left.
Qed.

Lemma grows_from_watermark db db' t c' wm :
  grows_from db db' →
  select_max db t c' = inr wm →
  ∃ wm', select_max db' t c' = inr wm' ∧ value_leb wm wm' = true.
Proof.
  intros Hgrow (td & j & ty & Htd & Hj & ->)%select_max_inr.
  specialize (Hgrow t). rewrite Htd in Hgrow. destruct Hgrow as [new E].
  eexists. split.
  - apply select_max_inr. eexists _, j, ty. by rewrite E.
  - simpl. rewrite column_values_app. apply sql_max_app_leb.
Qed.

(** X5.  A run never lowers a watermark: for every table and column
    whose [MAX] can be read before the run, it can be read after the run,
    whatever its outcome, and is at least the value before (NULL counting
    as below every value). *)
Theorem main_never_lowers_watermark tables w t c' wm :
  select_max (dest_db w) t c' = inr wm →
  ∃ wm',
    select_max (dest_db (main params url tables c w).2) t c' = inr wm' ∧
    value_leb wm wm' = true.
Proof.
  apply grows_from_watermark. rewrite main_eq. cbv zeta.
  repeat case_match; try apply grows_from_refl.
  apply (for_each_grows _ _ _ tables (connected url w)).
Qed.

End RunInvariants.

Lemma main_never_lowers_watermark_witness :
  ∃ wm',
    select_max
      (dest_db (main demo_params demo_url ["events"] "ts" w_events_behind).2)
      "events" "ts" = inr wm' ∧
    value_leb (VDatetime 1005) wm' = true.
Proof.
  exact (main_never_lowers_watermark demo_params demo_url "ts" ["events"]
           w_events_behind "events" "ts" (VDatetime 1005) eq_refl).
Defined.

(** ** The log against the destination *)

Section Accounting.

Context (params : db_params) (url : string) (c : string).

Local Abbreviation body := (sync_table (Engine url) (Connection params) c).

Lemma rows_reported_for_snoc t tr e :
  rows_reported_for t (tr ++ [e]) =
  (rows_reported_for t tr + reported t e)%nat.
Proof.
  unfold rows_reported_for. rewrite omap_app, sum_list_with_app.
  f_equal. destruct e; simpl; try done. case_decide; simpl; lia.
Qed.

Lemma append_frame_size db t df td db' t' :
  db !! t = Some td →
  append_frame db t df = inr db' →
  table_size db' t' =
  (table_size db t' + if decide (t = t') then df_len df else 0)%nat.
Proof.
  intros Ht Happ.
  destruct (append_frame_existing _ _ _ _ _ Ht Happ) as [_ ->].
  unfold table_size. case_decide as Hd.
  - subst t'. rewrite lookup_insert_eq, Ht. simpl.
    by rewrite length_app, length_fmap.
  - rewrite lookup_insert_ne by done. lia.
Qed.

Lemma sync_table_accounting t w t' :
  (table_size (dest_db (body t w).2) t' + rows_reported_for t' (trace w)
   = table_size (dest_db w) t'
     + rows_reported_for t' (trace (body t w).2))%nat.
Proof.
  run_sync; simpl; rewrite ?rows_reported_for_snoc; simpl; try lia.
  all: destruct (select_max_table _ _ _ _ Hmax) as [td Htd].
  all: rewrite (append_frame_size _ _ _ _ _ t' Htd Hload).
  all: simpl; case_decide; lia.
Qed.

Lemma for_each_accounting tables w t' :
  (table_size (dest_db (for_each tables body w).2) t'
   + rows_reported_for t' (trace w)
   = table_size (dest_db w) t'
     + rows_reported_for t' (trace (for_each tables body w).2))%nat.
Proof.
  revert w. induction tables as [|t tables IH]; intros w; [done |].
  rewrite for_each_cons. pose proof (sync_table_accounting t w t') as Hstep.
  destruct (body t w).1; simpl; try done.
  specialize (IH (body t w).2). lia.
Qed.

(** X6.  The log accounts for every row written: whatever the tables,
    the faults and the outcome of a run, each table of the destination
    has grown by exactly the number of rows that the "Copied n rows"
    lines of the run report for it. *)
Theorem main_log_accounts_for_rows tables w t :
  (table_size (dest_db (main params url tables c w).2) t
   + rows_reported_for t (trace w)
   = table_size (dest_db w) t
     + rows_reported_for t (trace (main params url tables c w).2))%nat.
Proof.
  rewrite main_eq. cbv zeta. repeat case_match; simpl;
    rewrite ?rows_reported_for_snoc; simpl; try lia.
  pose proof (for_each_accounting tables (connected url w) t) as Hloop.
  simpl in Hloop. rewrite !rows_reported_for_snoc in Hloop. simpl in Hloop.
  lia.
Qed.

End Accounting.

(** ** Well-formed tables *)

Section WellFormed.

Context (params : db_params) (url : string) (c : string).

Local Abbreviation body := (sync_table (Engine url) (Connection params) c).

Lemma wf_db_spec db :
  wf_db db = true ↔ ∀ t tbl, db !! t = Some tbl → wf_table tbl = true.
Proof.
  unfold wf_db. rewrite forallb_forall. split.
  - intros H t tbl Ht. apply (H (t, tbl)), list_elem_of_In.
    by apply elem_of_map_to_list.
  - intros H [t tbl] Hin%list_elem_of_In%elem_of_map_to_list. by eapply H.
Qed.

Lemma insert_rows_wf tbl names data tbl' :
  wf_table tbl = true →
  insert_rows tbl names data = inr tbl' →
  wf_table tbl' = true.
Proof.
  intros (Hnd & Hrows)%wf_table_spec. unfold insert_rows.
  destruct (forallb _ names); [| done].
  destruct (forallb _ _) eqn:Hconf; [| done]. intros [= <-].
  apply wf_table_spec. split; [done |]. simpl.
  intros r [Hr|Hr]%elem_of_app; [by apply Hrows |].
  split.
  - apply list_elem_of_fmap in Hr as (r0 & -> & _).
    unfold project_row. by rewrite length_fmap.
  - rewrite forallb_forall in Hconf. by apply Hconf, list_elem_of_In.
Qed.

Lemma append_frame_wf db t df td db' :
  db !! t = Some td →
  wf_db db = true →
  append_frame db t df = inr db' →
  wf_db db' = true.
Proof.
  intros Ht Hwf. unfold append_frame. rewrite Ht.
  destruct (insert_rows _ _ _) as [|td'] eqn:Hins; [done |]. intros [= <-].
  rewrite wf_db_spec in Hwf |- *. intros t' tbl.
  destruct (decide (t' = t)) as [-> |Hne].
  - rewrite lookup_insert_eq. intros [= <-].
    eapply insert_rows_wf; [| exact Hins]. by eapply Hwf.
  - rewrite lookup_insert_ne by done. apply Hwf.
Qed.

Lemma sync_table_wf t w :
  wf_db (dest_db w) = true → wf_db (dest_db (body t w).2) = true.
Proof.
  intros Hwf. run_sync; simpl; try done.
  all: destruct (select_max_table _ _ _ _ Hmax) as [td Htd].
  all: by eapply append_frame_wf.
Qed.

Lemma for_each_wf tables w :
  wf_db (dest_db w) = true →
  wf_db (dest_db (for_each tables body w).2) = true.
Proof.
  revert w. induction tables as [|t tables IH]; intros w Hwf; [done |].
  rewrite for_each_cons. pose proof (sync_table_wf t w Hwf) as Hstep.
  destruct (body t w).1; simpl; try done. by apply IH.
Qed.

(** X7.  A run keeps the destination well formed: when every table of
    the destination has distinct column names and rows of the width and
    the types of its schema, the same holds after [main], whatever the
    source holds, the faults and the outcome.  A batch with a value that
    does not fit is rejected as a whole. *)
Theorem main_keeps_destination_well_formed tables w :
  wf_db (dest_db w) = true →
  wf_db (dest_db (main params url tables c w).2) = true.
Proof.
  intros Hwf. rewrite main_eq. cbv zeta. repeat case_match; try done.
  by apply for_each_wf.
Qed.

End WellFormed.

Lemma main_keeps_destination_well_formed_witness :
  wf_db (dest_db (main demo_params demo_url ["events"] "ts"
                    w_events_behind).2) = true.
Proof.
  exact (main_keeps_destination_well_formed demo_params demo_url "ts"
           ["events"] w_events_behind eq_refl).
Defined.

(** ** The incremental copy *)

Section IncrementalCopy.

Context (eng : engine) (conn : connection) (c t : string).





End IncrementalCopy.


(** ** How a run ends *)

Section Ending.

Context (params : db_params) (url : string) (c : string).

Local Abbreviation body := (sync_table (Engine url) (Connection params) c).






End Ending.


(** ** Before the first table *)

Section Startup.

Context (params : db_params) (url : string) (c : string).

(** X10.  When the engine cannot be created or the source connection
    cannot be opened, the run exits with status 1 before the first table:
    it issues no query, writes nothing, and when it is the engine that
    failed it does not even try to connect. *)
Theorem startup_failure_touches_no_table tables w :
  fault_next w = true ∨ fault_next (tick w) = true →
  let r := main params url tables c w in
  r.1 = Exit 1 ∧
  dest_db r.2 = dest_db w ∧
  ops (trace r.2) = ops (trace w) ∧
  trace r.2 =
    trace w ++
    (if fault_next w
     then [CallCreateEngine url; ErrEngine OperationalError]
     else [CallCreateEngine url; CallConnect; ErrConnect OperationalError]).
Proof.
  intros Hfault. cbv zeta. rewrite main_eq. cbv zeta.
  destruct (fault_next w) eqn:H0.
  { simpl. split_and!; try done.
    - rewrite !ops_snoc. simpl. by rewrite !app_nil_r.
    - by rewrite <- (assoc_L (++)). }
  destruct Hfault as [|H1]; [done |].
  change (fault_next (tick (log (CallCreateEngine url) w)))
    with (fault_next (tick w)).
  rewrite H1. simpl. split_and!; try done.
  - rewrite !ops_snoc. simpl. by rewrite !app_nil_r.
  - by rewrite <- !(assoc_L (++)).
Qed.

End Startup.

Lemma startup_failure_touches_no_table_witness :
  let r := main demo_params demo_url ["events"] "ts"
             (set_faults [false; true] w_events) in
  r.1 = Exit 1 ∧
  dest_db r.2 = dest_db w_events ∧
  ops (trace r.2) = [] ∧
  trace r.2 =
    [CallCreateEngine demo_url; CallConnect; ErrConnect OperationalError].
Proof.
  exact (startup_failure_touches_no_table demo_params demo_url "ts"
           ["events"] (set_faults [false; true] w_events)
           (or_intror eq_refl)).
Defined.

(** ** What the fetch hands over *)

Section FetchShape.

Context (conn : connection) (t c : string).


End FetchShape.

(** ** A table the destination lacks *)

Section MissingTable.

Context (eng : engine) (conn : connection) (c t : string).

(** X12.  A table, or a timestamp column, that the destination lacks is
    an error, not an empty table: processing it exits with status 1 right
    after the watermark query, before the source is queried, and the
    table is not created. *)
Theorem missing_destination_table_is_fatal w :
  dest_db w !! t = None ∨
  (∃ td, dest_db w !! t = Some td ∧ c ∉ column_names td) →
  let r := sync_table eng conn c t w in
  r.1 = Exit 1 ∧
  dest_db r.2 = dest_db w ∧
  ∃ e, trace r.2 =
       trace w ++ [InfoProcessing t; CallSelectMax t c; ErrLatest t e].
Proof.
  intros Hmissing. cbv zeta.
  assert (select_max (dest_db w) t c = inl ProgrammingError) as Hmax.
  { unfold select_max. destruct Hmissing as [-> |(td & -> & Hc)]; [done |].
    destruct (find_column c (columns td)) as [[j ty]|] eqn:Hj; [| done].
    exfalso. apply Hc, find_column_is_Some. by rewrite Hj. }
  unfold sync_table, bind, emit. cbv beta iota.
  rewrite get_latest_timestamp_eq. cbv zeta.
  change (dest_db (log (InfoProcessing t) w)) with (dest_db w).
  rewrite Hmax. destruct (fault_next _); simpl.
  all: split_and!; try done; eexists; by rewrite <- !(assoc_L (++)).
Qed.

End MissingTable.

Lemma missing_destination_table_is_fatal_witness :
  let r := sync_table demo_engine demo_conn "ts" "events" w_no_dest_table in
  r.1 = Exit 1 ∧
  dest_db r.2 = dest_db w_no_dest_table ∧
  ∃ e, trace r.2 =
       trace w_no_dest_table ++
       [InfoProcessing "events"; CallSelectMax "events" "ts";
        ErrLatest "events" e].
Proof.
  exact (missing_destination_table_is_fatal demo_engine demo_conn "ts"
           "events" w_no_dest_table (or_introl eq_refl)).
Defined.
